(** * Bit-level stream reader: select, shift, next, doNext

    A shallow embedding of the bit reader of
    [src/coliru/07ada2f480ba99ab.cpp] and the properties its
    specification states about it.

    Machine integers are mathematical integers with the wrap-around of
    their C++ type written out: [std::uint8_t] wraps modulo 2^8 and
    [std::size_t] modulo 2^64.  A failed [assert] (or an access outside
    the span) is the result [None].  The diagnostic output the functions
    write to [std::cout] is left out. *)

From Stdlib Require Import ZArith List Lia Bool String Ascii.
Import ListNotations.

Local Open Scope Z_scope.

(** ** Machine integers *)

Module Machine.

Definition u8 (x : Z) : Z := x mod 2 ^ 8.

Definition SIZE_WIDTH : Z := 64.

Definition usize (x : Z) : Z := x mod 2 ^ SIZE_WIDTH.

Definition is_u8 (x : Z) : Prop := 0 <= x < 2 ^ 8.

(** [assert(c)]: continue when [c] holds, abort otherwise. *)
Definition assert (c : bool) : option unit :=
  if c then Some tt else None.

Definition bind {X Y : Type} (m : option X) (k : X -> option Y) : option Y :=
  match m with
  | Some x => k x
  | None => None
  end.

End Machine.

Import Machine.

Notation "x <- m ;; k" := (bind m (fun x => k))
  (at level 61, m at next level, right associativity).
Notation "'asserting' c ;; k" := (bind (assert c) (fun _ => k))
  (at level 61, c at next level, right associativity).

(** ** Bit primitives *)

(** [select(data, start, stop)]:
    [data & (0xFF >> (7 - stop)) & (0xFF << start)], computed in [int]
    and narrowed to [std::uint8_t] by the return. *)
Definition select (data start stop : Z) : option Z :=
  asserting (start <? 8) ;;
  asserting (stop <? 8) ;;
  asserting (stop >=? start) ;;
  Some (u8 (Z.land (Z.land data (Z.shiftr 255 (7 - stop)))
                   (Z.shiftl 255 start))).

(** [shift(data, start, offset)]: [(data >> start) << offset], computed in
    [int] and narrowed to [std::uint8_t] by the return. *)
Definition shift (data start offset : Z) : option Z :=
  asserting (start <? 8) ;;
  asserting (offset <=? 8) ;;
  Some (u8 (Z.shiftl (Z.shiftr data start) offset)).

(** ** The extraction *)

(** The local [struct Ctrl] of [next]; pairs are kept as pairs. *)
Record Ctrl : Type := mkCtrl {
  pos : Z * Z;
  twoBytes : bool;
  byte : Z * Z;
  count : Z * Z;
  range : (Z * Z) * (Z * Z)
}.

(** The member initialisers of [Ctrl::Ctrl(std::size_t cursor, std::size_t n)],
    in declaration order.  [BitPosition], [ByteIndex] and [BitCount] are all
    [std::uint8_t]. *)
Definition Ctrl_init (cursor n : Z) : Ctrl :=
  let pos := (u8 (cursor mod 8),
              u8 (usize (usize (cursor + n) - 1) mod 8)) in
  let twoBytes := snd pos <? fst pos in
  let byte := (u8 (cursor / 8),
               u8 (usize (usize (cursor + n) - 1) / 8)) in
  let count := (Z.min (u8 (8 - fst pos)) (u8 n),
                u8 (if twoBytes then snd pos + 1 else 0)) in
  let range := ((fst pos, if twoBytes then 7 else snd pos),
                (0, if twoBytes then snd pos else 0)) in
  mkCtrl pos twoBytes byte count range.

(** The assertions in the body of the [Ctrl] constructor; [N] is the
    extent of the span. *)
Definition Ctrl_asserts (N n : Z) (c : Ctrl) : bool :=
  (n >? 0)
  && (fst (count c) + snd (count c) =? n)
  && (snd (count c) =? Z.max (u8 (usize (n - fst (count c)))) (u8 0))
  && (fst (byte c) <? N)
  && (snd (byte c) <? N).

(** [data[i]] on a span: defined only below the extent. *)
Definition at_index (data : list Z) (i : Z) : option Z :=
  if (0 <=? i) && (i <? Z.of_nat (List.length data))
  then nth_error data (Z.to_nat i)
  else None.

(** [next(data, cursor, n)]; the extent [N] of the span is the length of
    [data], [n] is a [std::uint8_t]. *)
Definition next (data : list Z) (cursor n : Z) : option (Z * Z) :=
  let N := Z.of_nat (List.length data) in
  asserting (n >? 0) ;;
  asserting (n <=? 8) ;;
  asserting (usize (cursor + n) <=? usize (8 * N)) ;;
  let ctrl := Ctrl_init cursor n in
  asserting (Ctrl_asserts N n ctrl) ;;
  b1 <- at_index data (fst (byte ctrl)) ;;
  s1 <- select b1 (fst (fst (range ctrl))) (snd (fst (range ctrl))) ;;
  first <- shift s1 (fst (fst (range ctrl))) 0 ;;
  b2 <- at_index data (snd (byte ctrl)) ;;
  s2 <- select b2 (fst (snd (range ctrl))) (snd (snd (range ctrl))) ;;
  second <- shift s2 (fst (snd (range ctrl))) (fst (count ctrl)) ;;
  Some (u8 (if twoBytes ctrl then Z.lor first second else first),
        usize (cursor + n)).

(** ** The reader *)

Record Cursor : Type := mkCursor { read : Z; write : Z }.

(** [struct A<N>]: a view of the bytes and the two cursors. *)
Record A : Type := mkA { data : list Z; cursor : Cursor }.

(** [std::bitset<8>{v}.to_string()]: eight characters, bit 7 first. *)
Definition bit_char (v i : Z) : ascii :=
  if Z.testbit v i then "1"%char else "0"%char.

Definition bitset8_to_string (v : Z) : string :=
  String (bit_char v 7) (String (bit_char v 6) (String (bit_char v 5)
  (String (bit_char v 4) (String (bit_char v 3) (String (bit_char v 2)
  (String (bit_char v 1) (String (bit_char v 0) EmptyString))))))).

(** How a call of [doNext] ends: it returns a string, or an assertion
    aborts it; either way with the state of the reader at that point. *)
Inductive outcome : Type :=
| Returned (s : string) (t : A)
| Aborted (t : A).

Definition final_state (o : outcome) : A :=
  match o with
  | Returned _ t => t
  | Aborted t => t
  end.

(** [doNext<N>(t)]: the template argument [N] is a [std::size_t] and is
    narrowed by [std::uint8_t(N)]; the read cursor is assigned after
    [next] has returned. *)
Definition doNext (N : Z) (t : A) : outcome :=
  match next (data t) (read (cursor t)) (u8 N) with
  | Some r =>
      Returned (bitset8_to_string (fst r))
               (mkA (data t) (mkCursor (snd r) (write (cursor t))))
  | None => Aborted t
  end.

(** ** The specification's vocabulary *)

(** Global bit [g] of a buffer: bit [g mod 8] of byte [g / 8]. *)
Definition global_bit (data : list Z) (g : Z) : bool :=
  Z.testbit (nth (Z.to_nat (g / 8)) data 0) (g mod 8).

(** The bit an extraction fetches for global bit [g]: the byte is
    addressed through a [ByteIndex], a [std::uint8_t]. *)
Definition fetched_bit (data : list Z) (g : Z) : bool :=
  Z.testbit (nth (Z.to_nat (u8 (g / 8))) data 0) (g mod 8).

Definition buffer_ok (data : list Z) : Prop := Forall is_u8 data.

(** The bit capacity of the buffer is representable in [std::size_t]. *)
Definition capacity_ok (data : list Z) : Prop :=
  8 * Z.of_nat (List.length data) < 2 ^ SIZE_WIDTH.

(** The buffer of [main]. *)
Definition s : list Z := [253; 138; 247].

(** A buffer of 257 bytes whose last byte, at index 256, is [0xFF] and
    whose other bytes are zero; and one that differs from it at index 0
    only. *)
Definition wide : list Z := repeat 0 256 ++ [255].

Definition wide_other : list Z := 255 :: repeat 0 255 ++ [255].

(** The reader of [main] before its first read. *)
Definition a : A := mkA s (mkCursor 0 0).

(** ** Runs of reads *)

(** A sequence of [doNext] calls as [main] makes them: each call works on
    the reader the previous one left, and a failed assertion ends the
    program.  The result is the strings returned so far and the reader
    at the end. *)
Fixpoint doNexts (Ns : list Z) (t : A) : list string * A :=
  match Ns with
  | [] => ([], t)
  | N :: rest =>
      match doNext N t with
      | Returned str t' =>
          let r := doNexts rest t' in (str :: fst r, snd r)
      | Aborted t' => ([], t')
      end
  end.

(** [a.cursor.read = 0]. *)
Definition rewind (t : A) : A :=
  mkA (data t) (mkCursor 0 (write (cursor t))).

(** The strings [main] prints from [doNext], in order. *)
Definition main_strings : list string :=
  let r1 := doNexts [1; 4; 7] a in
  let r2 := doNexts [1; 7; 1; 6; 1] (rewind (snd r1)) in
  let r3 := doNexts [8; 8; 8] (rewind (snd r2)) in
  fst r1 ++ fst r2 ++ fst r3.

(** The sum of the widths of a run. *)
Definition total (ws : list Z) : Z := fold_right Z.add 0 ws.

(** The two bytes an extraction at [p] can touch, as one 16-bit
    little-endian number: the byte its first [ByteIndex] addresses and the
    byte after it. *)
Definition window (data : list Z) (p : Z) : Z :=
  nth (Z.to_nat (u8 (p / 8))) data 0
  + 2 ^ 8 * nth (Z.to_nat (u8 (p / 8 + 1))) data 0.

(** ** Bits of the masks and of the primitives *)

Section BitLemmas.

Lemma u8_small x : is_u8 x -> u8 x = x.
Proof. unfold is_u8, u8. intros H. apply Z.mod_small. exact H. Qed.

Lemma u8_is_u8 x : is_u8 (u8 x).
Proof. unfold is_u8, u8. apply Z.mod_pos_bound. reflexivity. Qed.

Lemma u8_bits x i : Z.testbit (u8 x) i = (i <? 8) && Z.testbit x i.
Proof.
  unfold u8. destruct (Z.ltb_spec i 8) as [Hi | Hi]; cbn [andb].
  - apply Z.mod_pow2_bits_low. exact Hi.
  - apply Z.mod_pow2_bits_high. lia.
Qed.

Lemma is_u8_bits_high x i : is_u8 x -> 8 <= i -> Z.testbit x i = false.
Proof.
  intros Hx Hi. rewrite <- (u8_small x Hx), u8_bits.
  destruct (Z.ltb_spec i 8); [lia | reflexivity].
Qed.

Lemma u8_below x : 0 <= x -> 0 <= u8 x <= x.
Proof.
  intros Hx. unfold u8. split.
  - apply Z.mod_pos_bound. reflexivity.
  - apply Z.mod_le; [exact Hx | reflexivity].
Qed.

(** [0xFF >> (7 - stop)] keeps the bits [0 .. stop]. *)
Lemma mask_upto stop :
  0 <= stop <= 7 -> Z.shiftr 255 (7 - stop) = Z.ones (stop + 1).
Proof.
  intros H.
  assert (stop = 0 \/ stop = 1 \/ stop = 2 \/ stop = 3 \/
          stop = 4 \/ stop = 5 \/ stop = 6 \/ stop = 7) as E by lia.
  repeat (destruct E as [E | E]; [subst stop; reflexivity | ]).
  subst stop; reflexivity.
Qed.

Lemma mask_upto_bits stop i :
  0 <= stop <= 7 ->
  Z.testbit (Z.shiftr 255 (7 - stop)) i = (0 <=? i) && (i <=? stop).
Proof.
  intros H. rewrite (mask_upto stop H).
  destruct (Z.leb_spec 0 i) as [Hi | Hi]; cbn [andb].
  - destruct (Z.leb_spec i stop).
    + apply Z.ones_spec_low. lia.
    + apply Z.ones_spec_high. lia.
  - apply Z.testbit_neg_r. exact Hi.
Qed.

(** [0xFF << start] keeps the bits [start .. start + 7]. *)
Lemma mask_from_bits start i :
  0 <= start ->
  Z.testbit (Z.shiftl 255 start) i = (start <=? i) && (i <? start + 8).
Proof.
  intros H. destruct (Z.leb_spec start i) as [Hi | Hi]; cbn [andb].
  - rewrite Z.shiftl_spec by lia. change 255 with (Z.ones 8).
    destruct (Z.ltb_spec i (start + 8)).
    + apply Z.ones_spec_low. lia.
    + apply Z.ones_spec_high. lia.
  - destruct (Z.ltb_spec i 0) as [Hn | Hn].
    + apply Z.testbit_neg_r. exact Hn.
    + apply Z.shiftl_spec_low. exact Hi.
Qed.

(** The value [select] computes, bit by bit. *)
Lemma select_value_bits b start stop i :
  0 <= start -> start <= stop -> stop <= 7 ->
  Z.testbit (u8 (Z.land (Z.land b (Z.shiftr 255 (7 - stop)))
                        (Z.shiftl 255 start))) i
  = (start <=? i) && (i <=? stop) && Z.testbit b i.
Proof.
  intros H0 H1 H2.
  rewrite u8_bits, !Z.land_spec, mask_upto_bits, mask_from_bits by lia.
  destruct (Z.ltb_spec i 8), (Z.leb_spec 0 i), (Z.leb_spec i stop),
    (Z.leb_spec start i), (Z.ltb_spec i (start + 8)),
    (Z.testbit b i); cbn [andb]; try reflexivity; lia.
Qed.

Lemma select_some b start stop :
  start <= stop -> stop <= 7 ->
  select b start stop
  = Some (u8 (Z.land (Z.land b (Z.shiftr 255 (7 - stop)))
                     (Z.shiftl 255 start))).
Proof.
  intros H1 H2. unfold select.
  replace (start <? 8) with true by (symmetry; apply Z.ltb_lt; lia).
  replace (stop <? 8) with true by (symmetry; apply Z.ltb_lt; lia).
  replace (stop >=? start) with true by (symmetry; apply Z.geb_le; lia).
  reflexivity.
Qed.

Lemma shift_some b start offset :
  start <= 7 -> offset <= 8 ->
  shift b start offset = Some (u8 (Z.shiftl (Z.shiftr b start) offset)).
Proof.
  intros H1 H2. unfold shift.
  replace (start <? 8) with true by (symmetry; apply Z.ltb_lt; lia).
  replace (offset <=? 8) with true by (symmetry; apply Z.leb_le; lia).
  reflexivity.
Qed.

(** The value [shift] computes, bit by bit. *)
Lemma shift_value_bits b start offset i :
  0 <= start -> 0 <= offset ->
  Z.testbit (u8 (Z.shiftl (Z.shiftr b start) offset)) i
  = (offset <=? i) && (i <? 8) && Z.testbit b (i - offset + start).
Proof.
  intros H0 H1. rewrite u8_bits.
  destruct (Z.leb_spec offset i) as [Hi | Hi]; cbn [andb].
  - rewrite Z.shiftl_spec, Z.shiftr_spec by lia. reflexivity.
  - destruct (Z.ltb_spec i 0) as [Hn | Hn].
    + rewrite Z.testbit_neg_r by exact Hn. apply andb_false_r.
    + rewrite Z.shiftl_spec_low by exact Hi. apply andb_false_r.
Qed.

End BitLemmas.

(** ** The control block of an extraction *)

Section CtrlLemmas.

Variables p n : Z.
Hypothesis Hp : 0 <= p.
Hypothesis Hn : 1 <= n <= 8.
Hypothesis Hfit : p + n < 2 ^ SIZE_WIDTH.

Lemma usize_end : usize (usize (p + n) - 1) = p + n - 1.
Proof.
  unfold usize, SIZE_WIDTH in *.
  rewrite (Z.mod_small (p + n)) by lia. apply Z.mod_small. lia.
Qed.

Lemma u8_local g : u8 (g mod 8) = g mod 8.
Proof.
  apply u8_small. unfold is_u8.
  pose proof (Z.mod_pos_bound g 8 eq_refl). lia.
Qed.

(** A field that ends in the byte it starts in. *)
Lemma Ctrl_init_single :
  p mod 8 + n <= 8 ->
  Ctrl_init p n
  = mkCtrl (p mod 8, p mod 8 + n - 1) false
           (u8 (p / 8), u8 (p / 8))
           (n, 0)
           ((p mod 8, p mod 8 + n - 1), (0, 0)).
Proof.
  intros Hs. unfold Ctrl_init. rewrite usize_end, !u8_local.
  pose proof (Z.mod_pos_bound p 8 eq_refl) as Hm.
  assert ((p + n - 1) mod 8 = p mod 8 + n - 1) as E1.
  { symmetry. apply (Z.mod_unique _ _ (p / 8)); [lia | ].
    pose proof (Z.div_mod p 8). lia. }
  assert ((p + n - 1) / 8 = p / 8) as E2.
  { symmetry. apply (Z.div_unique _ _ _ (p mod 8 + n - 1)); [lia | ].
    pose proof (Z.div_mod p 8). lia. }
  rewrite E1, E2. cbn [fst snd].
  replace (p mod 8 + n - 1 <? p mod 8) with false
    by (symmetry; apply Z.ltb_ge; lia).
  rewrite (u8_small (8 - p mod 8)) by (unfold is_u8; lia).
  rewrite (u8_small n) by (unfold is_u8; lia).
  rewrite Z.min_r by lia. reflexivity.
Qed.

(** A field that crosses into the next byte. *)
Lemma Ctrl_init_double :
  8 < p mod 8 + n ->
  Ctrl_init p n
  = mkCtrl (p mod 8, p mod 8 + n - 9) true
           (u8 (p / 8), u8 (p / 8 + 1))
           (8 - p mod 8, p mod 8 + n - 8)
           ((p mod 8, 7), (0, p mod 8 + n - 9)).
Proof.
  intros Hs. unfold Ctrl_init. rewrite usize_end, !u8_local.
  pose proof (Z.mod_pos_bound p 8 eq_refl) as Hm.
  assert ((p + n - 1) mod 8 = p mod 8 + n - 9) as E1.
  { symmetry. apply (Z.mod_unique _ _ (p / 8 + 1)); [lia | ].
    pose proof (Z.div_mod p 8). lia. }
  assert ((p + n - 1) / 8 = p / 8 + 1) as E2.
  { symmetry. apply (Z.div_unique _ _ _ (p mod 8 + n - 9)); [lia | ].
    pose proof (Z.div_mod p 8). lia. }
  rewrite E1, E2. cbn [fst snd].
  replace (p mod 8 + n - 9 <? p mod 8) with true
    by (symmetry; apply Z.ltb_lt; lia).
  rewrite (u8_small (8 - p mod 8)) by (unfold is_u8; lia).
  rewrite (u8_small n) by (unfold is_u8; lia).
  rewrite (u8_small (p mod 8 + n - 9 + 1)) by (unfold is_u8; lia).
  rewrite Z.min_l by lia.
  replace (p mod 8 + n - 9 + 1) with (p mod 8 + n - 8) by lia.
  reflexivity.
Qed.

End CtrlLemmas.

(** ** Assertions and accesses of an extraction *)

Section ExtractionLemmas.

Variable buf : list Z.
Variables p n : Z.
Hypothesis Hcap : capacity_ok buf.
Hypothesis Hp : 0 <= p.
Hypothesis Hn : 1 <= n <= 8.
Hypothesis Hend : p + n <= 8 * Z.of_nat (List.length buf).

Local Abbreviation N := (Z.of_nat (List.length buf)).
Local Abbreviation b1 := (nth (Z.to_nat (u8 (p / 8))) buf 0).
Local Abbreviation b2 := (nth (Z.to_nat (u8 (p / 8 + 1))) buf 0).

Lemma fits_usize : p + n < 2 ^ SIZE_WIDTH.
Proof using All. unfold capacity_ok in Hcap. lia. Qed.

Lemma first_byte_below : 0 <= p / 8 < N.
Proof using All.
  split; [apply Z.div_pos; lia | ].
  apply Z.div_lt_upper_bound; lia.
Qed.

Lemma last_byte_below : 0 <= (p + n - 1) / 8 < N.
Proof using All.
  split; [apply Z.div_pos; lia | ].
  apply Z.div_lt_upper_bound; lia.
Qed.

Lemma next_byte_below : 8 < p mod 8 + n -> p / 8 + 1 < N.
Proof using All.
  intros Hs. pose proof (Z.div_mod p 8).
  pose proof (Z.mod_pos_bound p 8 eq_refl). lia.
Qed.

Lemma Ctrl_byte_below :
  0 <= fst (byte (Ctrl_init p n)) < N /\
  0 <= snd (byte (Ctrl_init p n)) < N.
Proof using All.
  pose proof first_byte_below as H1.
  pose proof (u8_below (p / 8) (proj1 H1)) as B1.
  destruct (Z.le_gt_cases (p mod 8 + n) 8) as [Hs | Hs].
  - rewrite (Ctrl_init_single p n Hp Hn fits_usize Hs). cbn [byte fst snd].
    lia.
  - rewrite (Ctrl_init_double p n Hp Hn fits_usize) by lia.
    cbn [byte fst snd].
    pose proof (next_byte_below ltac:(lia)) as H2.
    pose proof (u8_below (p / 8 + 1) ltac:(lia)) as B2. lia.
Qed.

Lemma Ctrl_count_sum :
  fst (count (Ctrl_init p n)) + snd (count (Ctrl_init p n)) = n /\
  0 <= snd (count (Ctrl_init p n)) /\
  1 <= fst (count (Ctrl_init p n)) <= 8.
Proof using All.
  pose proof (Z.mod_pos_bound p 8 eq_refl) as Hm.
  destruct (Z.le_gt_cases (p mod 8 + n) 8) as [Hs | Hs].
  - rewrite (Ctrl_init_single p n Hp Hn fits_usize Hs). cbn [count fst snd].
    lia.
  - rewrite (Ctrl_init_double p n Hp Hn fits_usize) by lia.
    cbn [count fst snd]. lia.
Qed.

Lemma Ctrl_asserts_hold : Ctrl_asserts N n (Ctrl_init p n) = true.
Proof using All.
  destruct Ctrl_byte_below as [B1 B2].
  destruct Ctrl_count_sum as [S1 [S2 S3]].
  unfold Ctrl_asserts.
  set (c := Ctrl_init p n) in *.
  assert (u8 (usize (n - fst (count c))) = snd (count c)) as E.
  { replace (n - fst (count c)) with (snd (count c)) by lia.
    unfold usize, SIZE_WIDTH. rewrite Z.mod_small by lia.
    apply u8_small. unfold is_u8. lia. }
  rewrite E. change (u8 0) with 0. rewrite Z.max_l by lia.
  repeat (apply andb_true_intro; split).
  - apply Z.gtb_lt. lia.
  - apply Z.eqb_eq. exact S1.
  - apply Z.eqb_refl.
  - apply Z.ltb_lt. lia.
  - apply Z.ltb_lt. lia.
Qed.

Lemma at_index_nth i :
  0 <= i < N -> at_index buf i = Some (nth (Z.to_nat i) buf 0).
Proof using All.
  intros Hi. unfold at_index.
  replace (0 <=? i) with true by (symmetry; apply Z.leb_le; lia).
  replace (i <? N) with true by (symmetry; apply Z.ltb_lt; lia).
  cbn [andb]. apply nth_error_nth'. lia.
Qed.

Lemma next_asserts_pass :
  (n >? 0) = true /\ (n <=? 8) = true /\
  (usize (p + n) <=? usize (8 * N)) = true.
Proof using All.
  pose proof fits_usize as Hf. unfold capacity_ok in Hcap.
  split; [apply Z.gtb_lt; lia | ].
  split; [apply Z.leb_le; lia | ].
  apply Z.leb_le. unfold usize in *. rewrite !Z.mod_small; lia.
Qed.

Lemma usize_newpos : usize (p + n) = p + n.
Proof using All.
  pose proof fits_usize. unfold usize in *.
  apply Z.mod_small. lia.
Qed.

Lemma next_unfold :
  next buf p n
  = let ctrl := Ctrl_init p n in
    x1 <- at_index buf (fst (byte ctrl)) ;;
    s1 <- select x1 (fst (fst (range ctrl))) (snd (fst (range ctrl))) ;;
    first <- shift s1 (fst (fst (range ctrl))) 0 ;;
    x2 <- at_index buf (snd (byte ctrl)) ;;
    s2 <- select x2 (fst (snd (range ctrl))) (snd (snd (range ctrl))) ;;
    second <- shift s2 (fst (snd (range ctrl))) (fst (count ctrl)) ;;
    Some (u8 (if twoBytes ctrl then Z.lor first second else first),
          p + n).
Proof using All.
  destruct next_asserts_pass as [A1 [A2 A3]].
  pose proof Ctrl_asserts_hold as A4.
  unfold next. rewrite A1, A2, A3. cbv zeta.
  rewrite A4.
  rewrite usize_newpos. reflexivity.
Qed.

(** The value of a field that ends in the byte it starts in. *)
Lemma next_single :
  p mod 8 + n <= 8 ->
  next buf p n
  = Some (u8 (u8 (Z.shiftl
                    (Z.shiftr
                       (u8 (Z.land
                              (Z.land b1 (Z.shiftr 255 (7 - (p mod 8 + n - 1))))
                              (Z.shiftl 255 (p mod 8))))
                       (p mod 8)) 0)),
          p + n).
Proof using All.
  intros Hs. rewrite next_unfold. cbv zeta.
  pose proof (Z.mod_pos_bound p 8 eq_refl) as Hm.
  destruct Ctrl_byte_below as [B1 B2].
  rewrite !(at_index_nth _ B1), !(at_index_nth _ B2).
  rewrite (Ctrl_init_single p n Hp Hn fits_usize Hs).
  cbn [byte range count twoBytes fst snd bind].
  rewrite (select_some _ (p mod 8)) by lia.
  cbn [bind]. rewrite (shift_some _ (p mod 8) 0) by lia.
  cbn [bind]. rewrite (select_some _ 0 0) by lia.
  cbn [bind]. rewrite (shift_some _ 0 n) by lia.
  reflexivity.
Qed.

(** The value of a field that crosses into the next byte. *)
Lemma next_double :
  8 < p mod 8 + n ->
  next buf p n
  = Some (u8 (Z.lor
                (u8 (Z.shiftl
                       (Z.shiftr
                          (u8 (Z.land (Z.land b1 (Z.shiftr 255 (7 - 7)))
                                      (Z.shiftl 255 (p mod 8))))
                          (p mod 8)) 0))
                (u8 (Z.shiftl
                       (Z.shiftr
                          (u8 (Z.land
                                 (Z.land b2
                                    (Z.shiftr 255 (7 - (p mod 8 + n - 9))))
                                 (Z.shiftl 255 0)))
                          0) (8 - p mod 8)))),
          p + n).
Proof using All.
  intros Hs. rewrite next_unfold. cbv zeta.
  pose proof (Z.mod_pos_bound p 8 eq_refl) as Hm.
  destruct Ctrl_byte_below as [B1 B2].
  rewrite !(at_index_nth _ B1), !(at_index_nth _ B2).
  rewrite (Ctrl_init_double p n Hp Hn fits_usize Hs).
  cbn [byte range count twoBytes fst snd bind].
  rewrite (select_some _ (p mod 8) 7) by lia.
  cbn [bind]. rewrite (shift_some _ (p mod 8) 0) by lia.
  cbn [bind]. rewrite (select_some _ 0) by lia.
  cbn [bind]. rewrite (shift_some _ 0) by lia.
  reflexivity.
Qed.

Lemma fetched_same j :
  0 <= j -> p mod 8 + j <= 7 ->
  fetched_bit buf (p + j) = Z.testbit b1 (p mod 8 + j).
Proof using All.
  intros Hj Hs. unfold fetched_bit.
  pose proof (Z.mod_pos_bound p 8 eq_refl) as Hm.
  pose proof (Z.div_mod p 8 ltac:(lia)) as Hd.
  replace ((p + j) / 8) with (p / 8)
    by (apply (Z.div_unique _ _ _ (p mod 8 + j)); lia).
  replace ((p + j) mod 8) with (p mod 8 + j)
    by (apply (Z.mod_unique _ _ (p / 8)); lia).
  reflexivity.
Qed.

Lemma fetched_next j :
  8 <= p mod 8 + j -> j <= 7 ->
  fetched_bit buf (p + j) = Z.testbit b2 (p mod 8 + j - 8).
Proof using All.
  intros Hj Hs. unfold fetched_bit.
  pose proof (Z.mod_pos_bound p 8 eq_refl) as Hm.
  pose proof (Z.div_mod p 8 ltac:(lia)) as Hd.
  replace ((p + j) / 8) with (p / 8 + 1)
    by (apply (Z.div_unique _ _ _ (p mod 8 + j - 8)); lia).
  replace ((p + j) mod 8) with (p mod 8 + j - 8)
    by (apply (Z.mod_unique _ _ (p / 8 + 1)); lia).
  reflexivity.
Qed.

(** An extraction succeeds, advances by [n], and its value packs the [n]
    fetched bits from bit 0 upwards. *)
Lemma next_bits :
  exists v,
    next buf p n = Some (v, p + n) /\ is_u8 v /\
    forall j, Z.testbit v j
              = (0 <=? j) && (j <? n) && fetched_bit buf (p + j).
Proof using All.
  pose proof (Z.mod_pos_bound p 8 eq_refl) as Hm.
  destruct (Z.le_gt_cases (p mod 8 + n) 8) as [Hs | Hs].
  - eexists. split; [apply next_single; exact Hs | ].
    split; [apply u8_is_u8 | ].
    intros j. rewrite u8_bits, shift_value_bits by lia.
    rewrite select_value_bits by lia.
    destruct (Z.leb_spec 0 j) as [H0 | H0], (Z.ltb_spec j n) as [H1 | H1];
      cbn [andb];
      repeat match goal with
        | |- context [?a <? ?b] => destruct (Z.ltb_spec a b); try lia
        | |- context [?a <=? ?b] => destruct (Z.leb_spec a b); try lia
        end; cbn [andb]; try reflexivity.
    rewrite fetched_same by lia. f_equal. lia.
  - eexists. split; [apply next_double; lia | ].
    split; [apply u8_is_u8 | ].
    intros j. rewrite u8_bits, Z.lor_spec, !shift_value_bits by lia.
    rewrite !select_value_bits by lia.
    destruct (Z.leb_spec 0 j) as [H0 | H0], (Z.ltb_spec j n) as [H1 | H1];
      cbn [andb];
      repeat match goal with
        | |- context [?a <? ?b] => destruct (Z.ltb_spec a b); try lia
        | |- context [?a <=? ?b] => destruct (Z.leb_spec a b); try lia
        end; cbn [andb orb]; rewrite ?orb_false_r; try reflexivity.
    all: first [rewrite fetched_next by lia | rewrite fetched_same by lia];
      f_equal; lia.
Qed.

End ExtractionLemmas.

(** ** The primitives *)

(** C3.  For a byte [b] and [0 <= start <= stop <= 7], [select] returns the
    byte that has the bits of [b] at the positions [start .. stop] and
    zeros elsewhere; with [start > stop] or a bound above 7 an assertion
    fails. *)
Theorem select_spec b start stop :
  is_u8 b ->
  (0 <= start -> start <= stop -> stop <= 7 ->
   exists r,
     select b start stop = Some r /\ is_u8 r /\
     forall i, Z.testbit r i
               = (start <=? i) && (i <=? stop) && Z.testbit b i)
  /\ (start > stop \/ start > 7 \/ stop > 7 -> select b start stop = None).
Proof.
  intros Hb. split.
  - intros H0 H1 H2. eexists. split; [apply select_some; lia | ].
    split; [apply u8_is_u8 | ].
    intros i. apply select_value_bits; lia.
  - intros H. unfold select.
    destruct (Z.ltb_spec start 8); simpl; [ | reflexivity].
    destruct (Z.ltb_spec stop 8); simpl; [ | reflexivity].
    destruct (Z.geb_spec stop start); simpl; [lia | reflexivity].
Qed.

Lemma select_spec_witness :
  (exists r,
     select 253 1 4 = Some r /\ is_u8 r /\
     forall i, Z.testbit r i = (1 <=? i) && (i <=? 4) && Z.testbit 253 i)
  /\ select 253 4 1 = None.
Proof.
  assert (is_u8 253) as H by (unfold is_u8; lia).
  split.
  - apply (proj1 (select_spec 253 1 4 H)); lia.
  - apply (proj2 (select_spec 253 4 1 H)); lia.
Defined.

(** C4.  For a byte [b], [start <= 7] and [offset <= 8], [shift] returns
    [(b >> start) << offset] reduced modulo 2^8. *)
Theorem shift_spec b start offset :
  is_u8 b -> 0 <= start <= 7 -> 0 <= offset <= 8 ->
  shift b start offset = Some ((b / 2 ^ start * 2 ^ offset) mod 2 ^ 8).
Proof.
  intros Hb Hs Ho. rewrite shift_some by lia. unfold u8.
  rewrite Z.shiftl_mul_pow2, Z.shiftr_div_pow2 by lia. reflexivity.
Qed.

Lemma shift_spec_witness :
  shift 253 1 5 = Some ((253 / 2 ^ 1 * 2 ^ 5) mod 2 ^ 8).
Proof.
  apply (shift_spec 253 1 5); unfold is_u8; lia.
Defined.

(** ** The extraction: invariants *)

(** C2.  For a buffer of [N] bytes, [1 <= n <= 8] and [p + n <= 8 * N], the
    control block satisfies [countFirst + countSecond = n],
    [countSecond = max (n - countFirst) 0], [byteFirst < N] and
    [byteLast < N]; the constructor's assertions hold and both accesses to
    the buffer are below [N]. *)
Theorem next_invariants buf p n :
  capacity_ok buf -> 0 <= p -> 1 <= n <= 8 ->
  p + n <= 8 * Z.of_nat (List.length buf) ->
  let N := Z.of_nat (List.length buf) in
  let c := Ctrl_init p n in
  fst (count c) + snd (count c) = n /\
  snd (count c) = Z.max (n - fst (count c)) 0 /\
  (0 <= fst (byte c) < N /\ 0 <= snd (byte c) < N) /\
  (p / 8 < N /\ (p + n - 1) / 8 < N) /\
  Ctrl_asserts N n c = true /\
  (exists b1, at_index buf (fst (byte c)) = Some b1) /\
  (exists b2, at_index buf (snd (byte c)) = Some b2).
Proof.
  intros Hcap Hp Hn Hend N c.
  destruct (Ctrl_count_sum buf p n Hcap Hp Hn Hend) as [S1 [S2 S3]].
  destruct (Ctrl_byte_below buf p n Hcap Hp Hn Hend) as [B1 B2].
  fold c in S1, S2, S3, B1, B2. fold N in B1, B2.
  split; [exact S1 | ].
  split; [lia | ].
  split; [split; assumption | ].
  split.
  { split.
    - apply (first_byte_below buf p n Hcap Hp Hn Hend).
    - apply (last_byte_below buf p n Hcap Hp Hn Hend). }
  split; [apply Ctrl_asserts_hold; assumption | ].
  split; eexists; apply (at_index_nth buf p n Hcap Hp Hn Hend); assumption.
Qed.

Lemma next_invariants_witness :
  let c := Ctrl_init 5 7 in
  fst (count c) + snd (count c) = 7 /\
  snd (count c) = Z.max (7 - fst (count c)) 0 /\
  (0 <= fst (byte c) < 3 /\ 0 <= snd (byte c) < 3) /\
  (5 / 8 < 3 /\ (5 + 7 - 1) / 8 < 3) /\
  Ctrl_asserts 3 7 c = true /\
  (exists b1, at_index s (fst (byte c)) = Some b1) /\
  (exists b2, at_index s (snd (byte c)) = Some b2).
Proof.
  apply (next_invariants s 5 7).
  - unfold capacity_ok. vm_compute. reflexivity.
  - lia.
  - lia.
  - vm_compute. discriminate.
Defined.

(** ** The extraction: value and position *)

Lemma capacity_ok_upto_256 buf :
  Z.of_nat (List.length buf) <= 256 -> capacity_ok buf.
Proof. unfold capacity_ok, SIZE_WIDTH. lia. Qed.

Lemma fetched_bit_upto_256 buf g :
  Z.of_nat (List.length buf) <= 256 ->
  0 <= g < 8 * Z.of_nat (List.length buf) ->
  fetched_bit buf g = global_bit buf g.
Proof.
  intros HN Hg. unfold fetched_bit, global_bit.
  rewrite u8_small; [reflexivity | ].
  unfold is_u8. split; [apply Z.div_pos; lia | ].
  apply Z.div_lt_upper_bound; lia.
Qed.

(** On a buffer of at most 256 bytes an extraction returns the [n] global
    bits from [p] on, packed from bit 0 upwards, and [p + n]. *)
Lemma next_correct_upto_256 buf p n :
  Z.of_nat (List.length buf) <= 256 ->
  0 <= p -> 1 <= n <= 8 ->
  p + n <= 8 * Z.of_nat (List.length buf) ->
  exists v,
    next buf p n = Some (v, p + n) /\
    (forall j, 0 <= j < n -> Z.testbit v j = global_bit buf (p + j)) /\
    (forall j, n <= j -> Z.testbit v j = false).
Proof.
  intros HN Hp Hn Hend.
  destruct (next_bits buf p n (capacity_ok_upto_256 buf HN) Hp Hn Hend)
    as [v [E [_ Hbits]]].
  exists v. split; [exact E | ]. split.
  - intros j Hj. rewrite Hbits, fetched_bit_upto_256 by lia.
    replace (0 <=? j) with true by (symmetry; apply Z.leb_le; lia).
    replace (j <? n) with true by (symmetry; apply Z.ltb_lt; lia).
    reflexivity.
  - intros j Hj. rewrite Hbits.
    replace (j <? n) with false by (symmetry; apply Z.ltb_ge; lia).
    rewrite andb_false_r. reflexivity.
Qed.

(** C1.  On the 257-byte buffer [wide], global bit 2048 (bit 0 of byte 256)
    is set, but the extraction of one bit at position 2048 addresses the
    byte through an 8-bit [ByteIndex], reads byte 0 and returns the value
    0: bit 0 of the value is not global bit [p + 0]. *)
Theorem next_wide_bit :
  2048 + 1 <= 8 * Z.of_nat (List.length wide) /\
  global_bit wide 2048 = true /\
  next wide 2048 1 = Some (0, 2049) /\
  Z.testbit 0 0 = false /\
  byte (Ctrl_init 2048 1) = (0, 0).
Proof. vm_compute. repeat split; discriminate. Qed.

(** C6.  On the 257-byte buffer [wide] the byte-aligned extraction of 8
    bits at position 2048 returns 0 (byte 0), not byte 2048 / 8 = 256,
    which is 255. *)
Theorem next_wide_byte :
  2048 mod 8 = 0 /\
  2048 + 8 <= 8 * Z.of_nat (List.length wide) /\
  nth (Z.to_nat (2048 / 8)) wide 0 = 255 /\
  next wide 2048 8 = Some (0, 2056).
Proof. vm_compute. repeat split; discriminate. Qed.

(** A byte-aligned extraction of 8 bits returns the byte its [ByteIndex]
    addresses; on a buffer of at most 256 bytes that is byte [p / 8]. *)
Lemma next_whole_byte buf p :
  capacity_ok buf -> buffer_ok buf ->
  0 <= p -> p mod 8 = 0 ->
  p + 8 <= 8 * Z.of_nat (List.length buf) ->
  next buf p 8 = Some (nth (Z.to_nat (u8 (p / 8))) buf 0, p + 8).
Proof.
  intros Hcap Hok Hp Ha Hend.
  destruct (next_bits buf p 8 Hcap Hp ltac:(lia) Hend) as [v [E [Hv Hbits]]].
  rewrite E. do 2 f_equal.
  assert (is_u8 (nth (Z.to_nat (u8 (p / 8))) buf 0)) as Hb.
  { destruct (nth_in_or_default (Z.to_nat (u8 (p / 8))) buf 0) as [I | D].
    - unfold buffer_ok in Hok. rewrite Forall_forall in Hok.
      apply Hok. exact I.
    - rewrite D. unfold is_u8. lia. }
  apply Z.bits_inj'. intros j Hj. rewrite Hbits.
  replace (0 <=? j) with true by (symmetry; apply Z.leb_le; lia).
  destruct (Z.ltb_spec j 8) as [H8 | H8]; cbn [andb].
  - unfold fetched_bit.
    replace ((p + j) / 8) with (p / 8)
      by (apply (Z.div_unique _ _ _ j); [lia | ];
          pose proof (Z.div_mod p 8); lia).
    replace ((p + j) mod 8) with j
      by (apply (Z.mod_unique _ _ (p / 8)); [lia | ];
          pose proof (Z.div_mod p 8); lia).
    reflexivity.
  - symmetry. apply is_u8_bits_high; assumption.
Qed.

Lemma next_whole_byte_upto_256 buf p :
  Z.of_nat (List.length buf) <= 256 -> buffer_ok buf ->
  0 <= p -> p mod 8 = 0 ->
  p + 8 <= 8 * Z.of_nat (List.length buf) ->
  next buf p 8 = Some (nth (Z.to_nat (p / 8)) buf 0, p + 8).
Proof.
  intros HN Hok Hp Ha Hend.
  rewrite (next_whole_byte buf p (capacity_ok_upto_256 buf HN) Hok Hp Ha Hend).
  rewrite u8_small; [reflexivity | ].
  unfold is_u8. split; [apply Z.div_pos; lia | ].
  apply Z.div_lt_upper_bound; lia.
Qed.

(** ** Composition, boundary and dependence *)

(** C5.  For widths [n1], [n2 >= 1] with [p mod 8 + n1 + n2 <= 8] and
    [p + n1 + n2 <= 8 * N], reading [n1] bits at [p] gives [v1], reading
    [n2] bits at [p + n1] gives [v2], and reading [n1 + n2] bits at [p]
    gives [v1 | (v2 << n1)]. *)
Theorem next_compose buf p n1 n2 :
  capacity_ok buf -> 0 <= p -> 1 <= n1 -> 1 <= n2 ->
  p mod 8 + n1 + n2 <= 8 ->
  p + n1 + n2 <= 8 * Z.of_nat (List.length buf) ->
  exists v1 v2,
    next buf p n1 = Some (v1, p + n1) /\
    next buf (p + n1) n2 = Some (v2, p + n1 + n2) /\
    next buf p (n1 + n2) = Some (Z.lor v1 (Z.shiftl v2 n1), p + n1 + n2).
Proof.
  intros Hcap Hp H1 H2 Hs Hend.
  pose proof (Z.mod_pos_bound p 8 eq_refl) as Hm.
  destruct (next_bits buf p n1 Hcap Hp ltac:(lia) ltac:(lia))
    as [v1 [E1 [_ B1]]].
  destruct (next_bits buf (p + n1) n2 Hcap ltac:(lia) ltac:(lia) ltac:(lia))
    as [v2 [E2 [_ B2]]].
  destruct (next_bits buf p (n1 + n2) Hcap Hp ltac:(lia) ltac:(lia))
    as [v [E [_ B]]].
  exists v1, v2. split; [exact E1 | ]. split; [exact E2 | ].
  rewrite E, Z.add_assoc. do 2 f_equal.
  apply Z.bits_inj'. intros j Hj.
  rewrite Z.lor_spec, Z.shiftl_spec, B, B1 by exact Hj.
  replace (0 <=? j) with true by (symmetry; apply Z.leb_le; lia).
  cbn [andb].
  destruct (Z.ltb_spec j n1) as [L | L]; cbn [andb orb].
  - rewrite (Z.testbit_neg_r v2) by lia. rewrite orb_false_r.
    replace (j <? n1 + n2) with true by (symmetry; apply Z.ltb_lt; lia).
    reflexivity.
  - rewrite B2.
    replace (0 <=? j - n1) with true by (symmetry; apply Z.leb_le; lia).
    replace (p + n1 + (j - n1)) with (p + j) by lia.
    destruct (Z.ltb_spec j (n1 + n2)), (Z.ltb_spec (j - n1) n2);
      try lia; reflexivity.
Qed.

Lemma next_compose_witness :
  exists v1 v2,
    next s 9 2 = Some (v1, 9 + 2) /\
    next s (9 + 2) 4 = Some (v2, 9 + 2 + 4) /\
    next s 9 (2 + 4) = Some (Z.lor v1 (Z.shiftl v2 2), 9 + 2 + 4).
Proof.
  apply (next_compose s 9 2 4).
  - unfold capacity_ok. vm_compute. reflexivity.
  - lia.
  - lia.
  - lia.
  - vm_compute. discriminate.
  - vm_compute. discriminate.
Defined.

(** C7.  For [1 <= n <= 8] and a buffer of [8 * N] bits that has the
    position [8 * N - n], the extraction at [8 * N - n] succeeds and ends
    at [8 * N]; the extraction at [8 * N - n + 1] fails an assertion. *)
Theorem next_boundary buf n :
  capacity_ok buf -> 1 <= n <= 8 ->
  n <= 8 * Z.of_nat (List.length buf) ->
  let capacity := 8 * Z.of_nat (List.length buf) in
  (exists v, is_u8 v /\ next buf (capacity - n) n = Some (v, capacity))
  /\ next buf (capacity - n + 1) n = None.
Proof.
  intros Hcap Hn Hpos capacity. subst capacity. split.
  - destruct (next_bits buf (8 * Z.of_nat (List.length buf) - n) n Hcap
                ltac:(lia) Hn ltac:(lia)) as [v [E [Hv _]]].
    exists v. split; [exact Hv | ].
    rewrite E. do 2 f_equal. lia.
  - unfold next. unfold capacity_ok in Hcap.
    replace (n >? 0) with true by (symmetry; apply Z.gtb_lt; lia).
    replace (n <=? 8) with true by (symmetry; apply Z.leb_le; lia).
    replace (usize (8 * Z.of_nat (List.length buf) - n + 1 + n)
             <=? usize (8 * Z.of_nat (List.length buf))) with false;
      [reflexivity | ].
    symmetry. apply Z.leb_gt. unfold usize, SIZE_WIDTH in *.
    rewrite !Z.mod_small; lia.
Qed.

Lemma next_boundary_witness :
  (exists v, is_u8 v /\ next s (24 - 7) 7 = Some (v, 24))
  /\ next s (24 - 7 + 1) 7 = None.
Proof.
  apply (next_boundary s 7).
  - unfold capacity_ok. vm_compute. reflexivity.
  - lia.
  - vm_compute. discriminate.
Defined.

(** The result of an extraction is determined by the two bytes its
    [ByteIndex] fields address. *)
Lemma next_depends buf buf' p n :
  capacity_ok buf -> 0 <= p -> 1 <= n <= 8 ->
  p + n <= 8 * Z.of_nat (List.length buf) ->
  List.length buf' = List.length buf ->
  nth (Z.to_nat (u8 (p / 8))) buf' 0
  = nth (Z.to_nat (u8 (p / 8))) buf 0 ->
  nth (Z.to_nat (u8 ((p + n - 1) / 8))) buf' 0
  = nth (Z.to_nat (u8 ((p + n - 1) / 8))) buf 0 ->
  next buf' p n = next buf p n.
Proof.
  intros Hcap Hp Hn Hend Hlen F L.
  assert (capacity_ok buf') as Hcap'
    by (unfold capacity_ok in *; rewrite Hlen; exact Hcap).
  assert (p + n <= 8 * Z.of_nat (List.length buf')) as Hend'
    by (rewrite Hlen; exact Hend).
  pose proof (Z.mod_pos_bound p 8 eq_refl) as Hm.
  destruct (Z.le_gt_cases (p mod 8 + n) 8) as [Hs | Hs].
  - rewrite (next_single buf p n Hcap Hp Hn Hend Hs).
    rewrite (next_single buf' p n Hcap' Hp Hn Hend' Hs).
    rewrite F. reflexivity.
  - rewrite (next_double buf p n Hcap Hp Hn Hend Hs).
    rewrite (next_double buf' p n Hcap' Hp Hn Hend' Hs).
    assert ((p + n - 1) / 8 = p / 8 + 1) as E.
    { symmetry. apply (Z.div_unique _ _ _ (p mod 8 + n - 9)); [lia | ].
      pose proof (Z.div_mod p 8). lia. }
    rewrite E in L. rewrite F, L. reflexivity.
Qed.

Lemma next_depends_upto_256 buf buf' p n :
  Z.of_nat (List.length buf) <= 256 -> 0 <= p -> 1 <= n <= 8 ->
  p + n <= 8 * Z.of_nat (List.length buf) ->
  List.length buf' = List.length buf ->
  nth (Z.to_nat (p / 8)) buf' 0 = nth (Z.to_nat (p / 8)) buf 0 ->
  nth (Z.to_nat ((p + n - 1) / 8)) buf' 0
  = nth (Z.to_nat ((p + n - 1) / 8)) buf 0 ->
  next buf' p n = next buf p n.
Proof.
  intros HN Hp Hn Hend Hlen F L.
  apply next_depends; try assumption.
  - apply capacity_ok_upto_256. exact HN.
  - rewrite u8_small; [exact F | ].
    unfold is_u8. split; [apply Z.div_pos; lia | ].
    apply Z.div_lt_upper_bound; lia.
  - rewrite u8_small; [exact L | ].
    unfold is_u8. split; [apply Z.div_pos; lia | ].
    apply Z.div_lt_upper_bound; lia.
Qed.

(** C10.  The 257-byte buffers [wide] and [wide_other] have the same size
    and agree at index 2048 / 8 = (2048 + 8 - 1) / 8 = 256, but the
    extraction of 8 bits at position 2048 returns 0 on the one and 255 on
    the other: it reads byte 0, where they differ. *)
Theorem next_wide_depends :
  List.length wide_other = List.length wide /\
  2048 + 8 <= 8 * Z.of_nat (List.length wide) /\
  nth (Z.to_nat (2048 / 8)) wide_other 0
  = nth (Z.to_nat (2048 / 8)) wide 0 /\
  nth (Z.to_nat ((2048 + 8 - 1) / 8)) wide_other 0
  = nth (Z.to_nat ((2048 + 8 - 1) / 8)) wide 0 /\
  next wide 2048 8 = Some (0, 2056) /\
  next wide_other 2048 8 = Some (255, 2056).
Proof. vm_compute. repeat split; discriminate. Qed.

(** ** The reader *)

(** Outside its preconditions an extraction fails an assertion. *)
Lemma next_none buf p n :
  capacity_ok buf -> 0 <= p -> p + 8 < 2 ^ SIZE_WIDTH ->
  ~ (1 <= n <= 8 /\ p + n <= 8 * Z.of_nat (List.length buf)) ->
  next buf p n = None.
Proof.
  intros Hcap Hp Hfit Hpre. unfold next.
  destruct (Z.gtb_spec n 0) as [G | G]; cbn [assert bind]; [ | reflexivity].
  destruct (Z.leb_spec n 8) as [L | L]; cbn [assert bind]; [ | reflexivity].
  replace (usize (p + n) <=? usize (8 * Z.of_nat (List.length buf)))
    with false; [reflexivity | ].
  symmetry. apply Z.leb_gt. unfold capacity_ok, usize, SIZE_WIDTH in *.
  rewrite !Z.mod_small; lia.
Qed.

(** For a width that fits [std::uint8_t], [doNext] moves the read cursor
    by the width when the preconditions of the extraction hold and aborts
    with the reader as it was when they do not. *)
Lemma doNext_cursor_u8 n t :
  is_u8 n -> capacity_ok (data t) ->
  0 <= read (cursor t) -> read (cursor t) + 8 < 2 ^ SIZE_WIDTH ->
  let N := Z.of_nat (List.length (data t)) in
  (1 <= n <= 8 /\ read (cursor t) + n <= 8 * N ->
   exists str,
     doNext n t
     = Returned str (mkA (data t)
                         (mkCursor (read (cursor t) + n) (write (cursor t)))))
  /\ (~ (1 <= n <= 8 /\ read (cursor t) + n <= 8 * N) ->
      doNext n t = Aborted t).
Proof.
  intros Hu Hcap Hp Hfit N. unfold doNext. rewrite (u8_small n Hu). split.
  - intros [Hn Hend].
    destruct (next_bits (data t) (read (cursor t)) n Hcap Hp Hn Hend)
      as [v [E _]].
    rewrite E. eexists. reflexivity.
  - intros Hpre. rewrite next_none by assumption. reflexivity.
Qed.

(** C8.  [doNext<257>] on the reader of [main]: the width 257 is outside
    [1 .. 8], yet the call returns and the read cursor moves from 0 to 1;
    the width was narrowed to [std::uint8_t(257) = 1] before the
    assertions of [next] saw it. *)
Theorem doNext_wide_width :
  ~ (1 <= 257 <= 8) /\
  read (cursor a) = 0 /\
  doNext 257 a = Returned "00000001" (mkA s (mkCursor 1 0)).
Proof.
  split; [lia | ]. split; reflexivity.
Qed.

(** C9.  A call of [doNext] that returns leaves the write cursor and the
    bytes of the buffer as they were. *)
Theorem doNext_frame N t str t' :
  doNext N t = Returned str t' ->
  write (cursor t') = write (cursor t) /\
  data t' = data t /\
  forall i, at_index (data t') i = at_index (data t) i.
Proof.
  unfold doNext. intros H.
  destruct (next (data t) (read (cursor t)) (u8 N)) as [r | ];
    [ | discriminate].
  injection H as _ Ht. subst t'. cbn [data cursor write].
  repeat split; reflexivity.
Qed.

Lemma doNext_frame_witness :
  write (cursor (mkA s (mkCursor 5 0))) = write (cursor (mkA s (mkCursor 1 0)))
  /\ data (mkA s (mkCursor 5 0)) = data (mkA s (mkCursor 1 0))
  /\ forall i, at_index (data (mkA s (mkCursor 5 0))) i
                = at_index (data (mkA s (mkCursor 1 0))) i.
Proof.
  apply (doNext_frame 4 (mkA s (mkCursor 1 0)) "00001110"
                      (mkA s (mkCursor 5 0))).
  reflexivity.
Defined.

(** The run of [main]: every call returns the string printed there. *)
Example main_trace :
  let o1 := doNext 1 a in
  let o2 := doNext 4 (final_state o1) in
  let o3 := doNext 7 (final_state o2) in
  let r1 := doNext 8 a in
  let r2 := doNext 8 (final_state r1) in
  let r3 := doNext 8 (final_state r2) in
  o1 = Returned "00000001" (mkA s (mkCursor 1 0)) /\
  o2 = Returned "00001110" (mkA s (mkCursor 5 0)) /\
  o3 = Returned "01010111" (mkA s (mkCursor 12 0)) /\
  r1 = Returned "11111101" (mkA s (mkCursor 8 0)) /\
  r2 = Returned "10001010" (mkA s (mkCursor 16 0)) /\
  r3 = Returned "11110111" (mkA s (mkCursor 24 0)).
Proof. vm_compute. repeat split. Qed.

(** ** More on the primitives *)

Lemma mod_pow2_bits x k i :
  0 <= k -> Z.testbit (x mod 2 ^ k) i = (i <? k) && Z.testbit x i.
Proof.
  intros Hk. destruct (Z.ltb_spec i k) as [Hi | Hi]; cbn [andb].
  - apply Z.mod_pow2_bits_low. exact Hi.
  - apply Z.mod_pow2_bits_high. lia.
Qed.

Ltac split_tests :=
  repeat match goal with
    | |- context [?x <? ?y] => destruct (Z.ltb_spec x y)
    | |- context [?x <=? ?y] => destruct (Z.leb_spec x y)
    end;
  cbn [andb orb]; try reflexivity; try lia.

(** Selecting twice selects the intersection of the two ranges: the bits
    of [b] from [max s1 s2] to [min e1 e2], and nothing when the ranges
    do not meet. *)
Theorem select_select b s1 e1 s2 e2 :
  is_u8 b ->
  0 <= s1 <= e1 -> e1 <= 7 -> 0 <= s2 <= e2 -> e2 <= 7 ->
  exists r1 r2,
    select b s1 e1 = Some r1 /\
    select r1 s2 e2 = Some r2 /\
    (Z.max s1 s2 <= Z.min e1 e2 ->
     select b (Z.max s1 s2) (Z.min e1 e2) = Some r2) /\
    (Z.min e1 e2 < Z.max s1 s2 -> r2 = 0).
Proof.
  intros Hb H1 H1' H2 H2'.
  eexists. eexists.
  split; [apply select_some; lia | ].
  split; [apply select_some; lia | ].
  split.
  - intros Hmeet. rewrite select_some by lia. f_equal.
    apply Z.bits_inj'. intros j Hj.
    rewrite !select_value_bits by lia. split_tests.
  - intros Hapart. apply Z.bits_inj'. intros j Hj.
    rewrite !select_value_bits by lia. rewrite Z.bits_0. split_tests.
Qed.

Lemma select_select_witness :
  exists r1 r2,
    select 253 1 5 = Some r1 /\
    select r1 3 7 = Some r2 /\
    select 253 3 5 = Some r2.
Proof.
  assert (is_u8 253) as Hb by (unfold is_u8; lia).
  destruct (select_select 253 1 5 3 7 Hb) as [r1 [r2 [E1 [E2 [Hmeet _]]]]];
    try lia.
  exists r1, r2. split; [exact E1 | ]. split; [exact E2 | ].
  apply Hmeet. vm_compute. discriminate.
Defined.

(** The field of a byte: selecting the bits [s .. e] and shifting them
    down by [s], as [next] does, gives [(b / 2^s) mod 2^(e - s + 1)]. *)
Theorem select_shift_field b s e :
  is_u8 b -> 0 <= s <= e -> e <= 7 ->
  exists r,
    select b s e = Some r /\
    shift r s 0 = Some ((b / 2 ^ s) mod 2 ^ (e - s + 1)).
Proof.
  intros Hb Hs He. eexists.
  split; [apply select_some; lia | ].
  rewrite shift_some by lia. f_equal.
  apply Z.bits_inj'. intros j Hj.
  rewrite shift_value_bits, select_value_bits by lia.
  rewrite mod_pow2_bits, Z.div_pow2_bits by lia.
  replace (j - 0 + s) with (j + s) by lia. split_tests.
Qed.

Lemma select_shift_field_witness :
  exists r,
    select 253 1 4 = Some r /\
    shift r 1 0 = Some ((253 / 2 ^ 1) mod 2 ^ (4 - 1 + 1)).
Proof.
  apply (select_shift_field 253 1 4); unfold is_u8; lia.
Defined.

(** Shifting a byte up by [k] and down again loses its top [k] bits. *)
Theorem shift_up_down b k :
  is_u8 b -> 0 <= k <= 7 ->
  exists r,
    shift b 0 k = Some r /\ shift r k 0 = Some (b mod 2 ^ (8 - k)).
Proof.
  intros Hb Hk. eexists.
  split; [apply shift_some; lia | ].
  rewrite shift_some by lia. f_equal.
  apply Z.bits_inj'. intros j Hj.
  rewrite !shift_value_bits by lia. rewrite mod_pow2_bits by lia.
  replace (j - 0 + k - k + 0) with j by lia. split_tests.
Qed.

Lemma shift_up_down_witness :
  exists r,
    shift 253 0 3 = Some r /\ shift r 3 0 = Some (253 mod 2 ^ (8 - 3)).
Proof.
  apply (shift_up_down 253 3); unfold is_u8; lia.
Defined.

(** Shifting a byte down by [k] and up again clears its low [k] bits: it
    is the selection of the bits [k .. 7]. *)
Theorem shift_down_up b k :
  is_u8 b -> 0 <= k <= 7 ->
  exists r,
    shift b k 0 = Some r /\ shift r 0 k = select b k 7.
Proof.
  intros Hb Hk. eexists.
  split; [apply shift_some; lia | ].
  rewrite shift_some, select_some by lia. f_equal.
  apply Z.bits_inj'. intros j Hj.
  rewrite !shift_value_bits, select_value_bits by lia.
  replace (j - k + 0 - 0 + k) with j by lia. split_tests.
Qed.

Lemma shift_down_up_witness :
  exists r, shift 253 3 0 = Some r /\ shift r 0 3 = select 253 3 7.
Proof.
  apply (shift_down_up 253 3); unfold is_u8; lia.
Defined.

Lemma bit_char_inj v w i :
  bit_char v i = bit_char w i -> Z.testbit v i = Z.testbit w i.
Proof.
  unfold bit_char.
  destruct (Z.testbit v i), (Z.testbit w i);
    intros H; try reflexivity; discriminate H.
Qed.

(** The string [doNext] returns determines the byte it was made from. *)
Theorem bitset8_to_string_inj v w :
  is_u8 v -> is_u8 w ->
  bitset8_to_string v = bitset8_to_string w -> v = w.
Proof.
  intros Hv Hw H. unfold bitset8_to_string in H.
  injection H as H7 H6 H5 H4 H3 H2 H1 H0.
  apply bit_char_inj in H0, H1, H2, H3, H4, H5, H6, H7.
  apply Z.bits_inj'. intros j Hj.
  destruct (Z.le_gt_cases 8 j) as [Hhigh | Hlow].
  - rewrite !is_u8_bits_high by assumption. reflexivity.
  - assert (j = 0 \/ j = 1 \/ j = 2 \/ j = 3 \/
            j = 4 \/ j = 5 \/ j = 6 \/ j = 7) as E by lia.
    repeat (destruct E as [E | E]; [subst j; assumption | ]).
    subst j; assumption.
Qed.

Lemma bitset8_to_string_inj_witness : 253 = 253.
Proof.
  apply (bitset8_to_string_inj 253 253); [ | | reflexivity];
    unfold is_u8; lia.
Defined.

(** ** More on the extraction *)

Lemma next_correct_upto_256_witness :
  exists v,
    next s 5 7 = Some (v, 5 + 7) /\
    (forall j, 0 <= j < 7 -> Z.testbit v j = global_bit s (5 + j)) /\
    (forall j, 7 <= j -> Z.testbit v j = false).
Proof.
  apply (next_correct_upto_256 s 5 7).
  - vm_compute. discriminate.
  - lia.
  - lia.
  - vm_compute. discriminate.
Defined.

Lemma buffer_ok_nth buf i : buffer_ok buf -> is_u8 (nth i buf 0).
Proof.
  intros Hok. destruct (nth_in_or_default i buf 0) as [I | D].
  - unfold buffer_ok in Hok. rewrite Forall_forall in Hok.
    apply Hok. exact I.
  - rewrite D. unfold is_u8. lia.
Qed.

Lemma window_bits buf p k :
  buffer_ok buf -> 0 <= k ->
  Z.testbit (window buf p) k
  = if k <? 8
    then Z.testbit (nth (Z.to_nat (u8 (p / 8))) buf 0) k
    else Z.testbit (nth (Z.to_nat (u8 (p / 8 + 1))) buf 0) (k - 8).
Proof.
  intros Hok Hk. unfold window.
  pose proof (buffer_ok_nth buf (Z.to_nat (u8 (p / 8))) Hok) as H1.
  set (x1 := nth (Z.to_nat (u8 (p / 8))) buf 0) in *.
  set (x2 := nth (Z.to_nat (u8 (p / 8 + 1))) buf 0).
  unfold is_u8 in H1.
  destruct (Z.ltb_spec k 8) as [L | L].
  - rewrite <- (Z.mod_pow2_bits_low (x1 + 2 ^ 8 * x2) 8 k) by lia.
    rewrite (Z.mul_comm (2 ^ 8)), Z.mod_add by lia.
    rewrite Z.mod_small by lia. reflexivity.
  - replace k with (k - 8 + 8) at 1 by lia.
    rewrite <- Z.div_pow2_bits by lia.
    rewrite (Z.mul_comm (2 ^ 8)), Z.div_add by lia.
    rewrite Z.div_small by lia. reflexivity.
Qed.

(** The value of an extraction as a number: with the two bytes at the
    field read as one 16-bit little-endian number, it is that number
    shifted down by [p mod 8] and reduced modulo [2^n]; so it is below
    [2^n]. *)
Theorem next_window buf p n :
  capacity_ok buf -> buffer_ok buf ->
  0 <= p -> 1 <= n <= 8 ->
  p + n <= 8 * Z.of_nat (List.length buf) ->
  exists v,
    next buf p n = Some (v, p + n) /\
    v = (window buf p / 2 ^ (p mod 8)) mod 2 ^ n /\
    0 <= v < 2 ^ n.
Proof.
  intros Hcap Hok Hp Hn Hend.
  pose proof (Z.mod_pos_bound p 8 eq_refl) as Hm.
  destruct (next_bits buf p n Hcap Hp Hn Hend) as [v [E [_ Hbits]]].
  assert (v = (window buf p / 2 ^ (p mod 8)) mod 2 ^ n) as Ev.
  { apply Z.bits_inj'. intros j Hj.
    rewrite Hbits, mod_pow2_bits, Z.div_pow2_bits by lia.
    rewrite window_bits by (assumption || lia).
    replace (0 <=? j) with true by (symmetry; apply Z.leb_le; lia).
    cbn [andb]. destruct (Z.ltb_spec j n) as [L | L]; cbn [andb];
      [ | reflexivity].
    destruct (Z.ltb_spec (j + p mod 8) 8) as [S1 | S1].
    - rewrite (fetched_same buf p n Hcap Hp Hn Hend j) by lia.
      f_equal. lia.
    - rewrite (fetched_next buf p n Hcap Hp Hn Hend j) by lia.
      f_equal. lia. }
  exists v. split; [exact E | ]. split; [exact Ev | ].
  rewrite Ev. apply Z.mod_pos_bound. apply Z.pow_pos_nonneg; lia.
Qed.

Lemma next_window_witness :
  exists v,
    next s 5 7 = Some (v, 5 + 7) /\
    v = (window s 5 / 2 ^ (5 mod 8)) mod 2 ^ 7 /\
    0 <= v < 2 ^ 7.
Proof.
  apply (next_window s 5 7).
  - vm_compute. reflexivity.
  - unfold buffer_ok, s, is_u8. repeat constructor; lia.
  - lia.
  - lia.
  - vm_compute. discriminate.
Defined.

(** Two reads in a row compose wherever the field lies: for
    [n1 + n2 <= 8], also across a byte boundary, reading [n1] bits and
    then [n2] bits gives the parts [v1], [v2] of the one read of
    [n1 + n2] bits, which is [v1 | (v2 << n1)]. *)
Theorem next_compose_across buf p n1 n2 :
  capacity_ok buf -> 0 <= p -> 1 <= n1 -> 1 <= n2 -> n1 + n2 <= 8 ->
  p + n1 + n2 <= 8 * Z.of_nat (List.length buf) ->
  exists v1 v2,
    next buf p n1 = Some (v1, p + n1) /\
    next buf (p + n1) n2 = Some (v2, p + n1 + n2) /\
    next buf p (n1 + n2) = Some (Z.lor v1 (Z.shiftl v2 n1), p + n1 + n2).
Proof.
  intros Hcap Hp H1 H2 Hs Hend.
  destruct (next_bits buf p n1 Hcap Hp ltac:(lia) ltac:(lia))
    as [v1 [E1 [_ B1]]].
  destruct (next_bits buf (p + n1) n2 Hcap ltac:(lia) ltac:(lia) ltac:(lia))
    as [v2 [E2 [_ B2]]].
  destruct (next_bits buf p (n1 + n2) Hcap Hp ltac:(lia) ltac:(lia))
    as [v [E [_ B]]].
  exists v1, v2. split; [exact E1 | ]. split; [exact E2 | ].
  rewrite E, Z.add_assoc. do 2 f_equal.
  apply Z.bits_inj'. intros j Hj.
  rewrite Z.lor_spec, Z.shiftl_spec, B, B1 by exact Hj.
  replace (0 <=? j) with true by (symmetry; apply Z.leb_le; lia).
  cbn [andb].
  destruct (Z.ltb_spec j n1) as [L | L]; cbn [andb orb].
  - rewrite (Z.testbit_neg_r v2) by lia. rewrite orb_false_r.
    replace (j <? n1 + n2) with true by (symmetry; apply Z.ltb_lt; lia).
    reflexivity.
  - rewrite B2.
    replace (0 <=? j - n1) with true by (symmetry; apply Z.leb_le; lia).
    replace (p + n1 + (j - n1)) with (p + j) by lia.
    destruct (Z.ltb_spec j (n1 + n2)), (Z.ltb_spec (j - n1) n2);
      try lia; reflexivity.
Qed.

Lemma next_compose_across_witness :
  exists v1 v2,
    next s 5 3 = Some (v1, 5 + 3) /\
    next s (5 + 3) 4 = Some (v2, 5 + 3 + 4) /\
    next s 5 (3 + 4) = Some (Z.lor v1 (Z.shiftl v2 3), 5 + 3 + 4).
Proof.
  apply (next_compose_across s 5 3 4).
  - vm_compute. reflexivity.
  - lia.
  - lia.
  - lia.
  - lia.
  - vm_compute. discriminate.
Defined.

(** An extraction returns exactly when its preconditions hold: for a
    position at least 8 below the largest [std::size_t], [next] returns a
    result if and only if [1 <= n <= 8] and [p + n <= 8 * N]. *)
Theorem next_defined_iff buf p n :
  capacity_ok buf -> 0 <= p -> p + 8 < 2 ^ SIZE_WIDTH ->
  (exists r, next buf p n = Some r)
  <-> (1 <= n <= 8 /\ p + n <= 8 * Z.of_nat (List.length buf)).
Proof.
  intros Hcap Hp Hfit. split.
  - intros [r E].
    destruct (Z.le_gt_cases 1 n) as [A1 | A1];
      [ | rewrite next_none in E by (assumption || lia); discriminate E].
    destruct (Z.le_gt_cases n 8) as [A2 | A2];
      [ | rewrite next_none in E by (assumption || lia); discriminate E].
    destruct (Z.le_gt_cases (p + n) (8 * Z.of_nat (List.length buf)))
      as [A3 | A3];
      [ | rewrite next_none in E by (assumption || lia); discriminate E].
    lia.
  - intros [Hn Hend].
    destruct (next_bits buf p n Hcap Hp Hn Hend) as [v [E _]].
    eexists. exact E.
Qed.

Lemma next_defined_iff_witness :
  (exists r, next s 17 7 = Some r)
  <-> (1 <= 7 <= 8 /\ 17 + 7 <= 8 * Z.of_nat (List.length s)).
Proof.
  apply (next_defined_iff s 17 7).
  - vm_compute. reflexivity.
  - lia.
  - vm_compute. reflexivity.
Defined.

Ltac bind_inv H :=
  repeat match type of H with
    | bind (assert ?c) _ = Some _ =>
        destruct c eqn:?; cbn [assert bind] in H; [ | discriminate H]
    | bind ?m _ = Some _ =>
        destruct m eqn:?; cbn [bind] in H; [ | discriminate H]
    end.

(** What every result of [next] satisfies, whatever the arguments: the
    width passed the assertions, the value is a byte, and the new position
    is the wrapped sum, which the capacity assertion has bounded. *)
Lemma next_some_inv buf p n v c :
  next buf p n = Some (v, c) ->
  1 <= n <= 8 /\ is_u8 v /\ c = usize (p + n) /\
  c <= usize (8 * Z.of_nat (List.length buf)).
Proof.
  intros H. unfold next in H. cbv zeta in H. bind_inv H.
  injection H as Ev Ec. subst v c.
  repeat match goal with
    | E : (_ >? _) = true |- _ => apply Z.gtb_lt in E
    | E : (_ <=? _) = true |- _ => apply Z.leb_le in E
    end.
  split; [lia | ]. split; [apply u8_is_u8 | ]. split; [reflexivity | ].
  assumption.
Qed.

Lemma Ctrl_init_wrap n :
  1 <= n <= 8 ->
  Ctrl_init (2 ^ SIZE_WIDTH - n) n
  = mkCtrl (8 - n, 7) false (255, 255) (n, 0) ((8 - n, 7), (0, 0)).
Proof.
  intros H.
  assert (n = 1 \/ n = 2 \/ n = 3 \/ n = 4 \/
          n = 5 \/ n = 6 \/ n = 7 \/ n = 8) as E by lia.
  repeat (destruct E as [E | E]; [subst n; vm_compute; reflexivity | ]).
  subst n; vm_compute; reflexivity.
Qed.

(** The capacity assertion compares the wrapped sum [cursor + n]: at the
    position [2^64 - n], which lies beyond the capacity, the sum wraps to
    0, and on a buffer of at least 256 bytes [next] returns, with the new
    position 0. *)
Theorem next_wraps buf n :
  8 * Z.of_nat (List.length buf) < 2 ^ SIZE_WIDTH - 8 ->
  256 <= Z.of_nat (List.length buf) ->
  1 <= n <= 8 ->
  8 * Z.of_nat (List.length buf) < 2 ^ SIZE_WIDTH - n /\
  exists v, next buf (2 ^ SIZE_WIDTH - n) n = Some (v, 0).
Proof.
  intros Hcap HN Hn. split; [lia | ].
  unfold next.
  replace (n >? 0) with true by (symmetry; apply Z.gtb_lt; lia).
  replace (n <=? 8) with true by (symmetry; apply Z.leb_le; lia).
  replace (2 ^ SIZE_WIDTH - n + n) with (2 ^ SIZE_WIDTH) by lia.
  assert (usize (2 ^ SIZE_WIDTH) = 0) as Ew by reflexivity.
  rewrite Ew.
  replace (0 <=? usize (8 * Z.of_nat (List.length buf))) with true
    by (symmetry; apply Z.leb_le; apply Z.mod_pos_bound; reflexivity).
  cbn [assert bind]. cbv zeta. rewrite (Ctrl_init_wrap n Hn).
  assert (Ctrl_asserts (Z.of_nat (List.length buf)) n
            (mkCtrl (8 - n, 7) false (255, 255) (n, 0) ((8 - n, 7), (0, 0)))
          = true) as Ea.
  { unfold Ctrl_asserts. cbn [count byte fst snd].
    replace (n - n) with 0 by lia. change (u8 (usize 0)) with 0.
    change (u8 0) with 0. change (Z.max 0 0) with 0.
    repeat (apply andb_true_intro; split).
    - apply Z.gtb_lt. lia.
    - apply Z.eqb_eq. lia.
    - reflexivity.
    - apply Z.ltb_lt. lia.
    - apply Z.ltb_lt. lia. }
  rewrite Ea. cbn [assert bind byte range count twoBytes fst snd].
  assert (at_index buf 255 = Some (nth 255 buf 0)) as Ei.
  { unfold at_index.
    replace (255 <? Z.of_nat (List.length buf)) with true
      by (symmetry; apply Z.ltb_lt; lia).
    cbn [Z.leb Z.compare andb]. apply nth_error_nth'. lia. }
  rewrite Ei. cbn [bind].
  rewrite (select_some _ (8 - n) 7) by lia. cbn [bind].
  rewrite (shift_some _ (8 - n) 0) by lia. cbn [bind].
  rewrite (select_some _ 0 0) by lia. cbn [bind].
  rewrite (shift_some _ 0 n) by lia. cbn [bind].
  eexists. reflexivity.
Qed.

Lemma next_wraps_witness :
  8 * Z.of_nat (List.length wide) < 2 ^ SIZE_WIDTH - 3 /\
  exists v, next wide (2 ^ SIZE_WIDTH - 3) 3 = Some (v, 0).
Proof.
  apply (next_wraps wide 3).
  - vm_compute. reflexivity.
  - vm_compute. discriminate.
  - lia.
Defined.

(** ** More on the reader *)

(** After every call of [doNext] that returns, the read cursor is within
    the capacity of the buffer, wherever it was before. *)
Theorem doNext_cursor_in_range N t str t' :
  capacity_ok (data t) ->
  doNext N t = Returned str t' ->
  0 <= read (cursor t') <= 8 * Z.of_nat (List.length (data t')).
Proof.
  intros Hcap H. unfold doNext in H.
  destruct (next (data t) (read (cursor t)) (u8 N)) as [[v c] | ] eqn:E;
    [ | discriminate H].
  injection H as _ Ht. subst t'. cbn [data cursor read fst snd].
  destruct (next_some_inv _ _ _ _ _ E) as [_ [_ [Ec Hle]]].
  unfold capacity_ok in Hcap. unfold usize in *.
  rewrite (Z.mod_small (8 * _)) in Hle by lia.
  split; [ | exact Hle].
  rewrite Ec. apply Z.mod_pos_bound. reflexivity.
Qed.

Lemma doNext_cursor_in_range_witness :
  0 <= read (cursor (mkA s (mkCursor 12 0)))
  <= 8 * Z.of_nat (List.length (data (mkA s (mkCursor 12 0)))).
Proof.
  apply (doNext_cursor_in_range 7 (mkA s (mkCursor 5 0)) "01010111"
                                (mkA s (mkCursor 12 0))).
  - vm_compute. reflexivity.
  - reflexivity.
Defined.

(** [doNext<N>] for any [N]: with [n = N mod 2^8] the width [next] sees,
    the call returns and moves the read cursor by [n] when [1 <= n <= 8]
    and [read + n <= 8 * size], and otherwise aborts with the reader as it
    was. *)
Theorem doNext_cursor_any N t :
  capacity_ok (data t) ->
  0 <= read (cursor t) -> read (cursor t) + 8 < 2 ^ SIZE_WIDTH ->
  let n := N mod 2 ^ 8 in
  let size := Z.of_nat (List.length (data t)) in
  (1 <= n <= 8 /\ read (cursor t) + n <= 8 * size ->
   exists str,
     doNext N t
     = Returned str (mkA (data t)
                         (mkCursor (read (cursor t) + n) (write (cursor t)))))
  /\ (~ (1 <= n <= 8 /\ read (cursor t) + n <= 8 * size) ->
      doNext N t = Aborted t).
Proof.
  intros Hcap Hp Hfit n size. unfold doNext. fold (u8 N) in n.
  change (u8 N) with n. split.
  - intros [Hn Hend].
    destruct (next_bits (data t) (read (cursor t)) n Hcap Hp Hn Hend)
      as [v [E _]].
    rewrite E. eexists. reflexivity.
  - intros Hpre. rewrite next_none by assumption. reflexivity.
Qed.

Lemma doNext_cursor_any_witness :
  (exists str, doNext 260 a = Returned str (mkA s (mkCursor 4 0)))
  /\ doNext 265 a = Aborted a.
Proof.
  split.
  - apply (doNext_cursor_any 260 a).
    + vm_compute. reflexivity.
    + vm_compute. discriminate.
    + vm_compute. reflexivity.
    + vm_compute. repeat split; discriminate.
  - apply (doNext_cursor_any 265 a).
    + vm_compute. reflexivity.
    + vm_compute. discriminate.
    + vm_compute. reflexivity.
    + vm_compute. intros [[_ H] _]. apply H. reflexivity.
Defined.

(** ** Runs of reads *)

Lemma skipn_nth_cons (l : list Z) i :
  (i < List.length l)%nat -> skipn i l = nth i l 0 :: skipn (S i) l.
Proof.
  revert i. induction l as [ | x l IH]; intros i Hi; cbn [List.length] in Hi.
  - lia.
  - destruct i as [ | i]; [reflexivity | ].
    cbn [skipn nth]. apply IH. lia.
Qed.

(** Reading bytes with [doNext<8>]: on a buffer of at most 256 bytes,
    from the read cursor [8 * i], [k] calls that stay within the buffer
    return the strings of the bytes [i .. i + k - 1], in order, and leave
    the read cursor at [8 * (i + k)]. *)
Theorem doNexts_bytes buf w k :
  buffer_ok buf -> Z.of_nat (List.length buf) <= 256 ->
  forall i, (i + k <= List.length buf)%nat ->
  doNexts (repeat 8 k) (mkA buf (mkCursor (8 * Z.of_nat i) w))
  = (map bitset8_to_string (firstn k (skipn i buf)),
     mkA buf (mkCursor (8 * Z.of_nat (i + k)) w)).
Proof.
  intros Hok HN. induction k as [ | k IH]; intros i Hi.
  - cbn [repeat doNexts firstn map]. rewrite Nat.add_0_r. reflexivity.
  - cbn [repeat doNexts]. unfold doNext. cbn [data cursor read write].
    change (u8 8) with 8.
    rewrite (next_whole_byte_upto_256 buf (8 * Z.of_nat i) HN Hok)
      by (try lia; rewrite Z.mul_comm; apply Z.mod_mul; lia).
    cbn [fst snd].
    replace (8 * Z.of_nat i / 8) with (Z.of_nat i)
      by (rewrite Z.mul_comm, Z.div_mul; lia).
    rewrite Nat2Z.id.
    replace (8 * Z.of_nat i + 8) with (8 * Z.of_nat (S i)) by lia.
    rewrite (IH (S i)) by lia. cbn [fst snd].
    rewrite (skipn_nth_cons buf i) by lia. cbn [firstn map].
    replace (S i + k)%nat with (i + S k)%nat by lia. reflexivity.
Qed.

Lemma doNexts_bytes_witness :
  doNexts (repeat 8 2%nat) (mkA s (mkCursor (8 * Z.of_nat 1) 0))
  = (map bitset8_to_string (firstn 2 (skipn 1 s)),
     mkA s (mkCursor (8 * Z.of_nat (1 + 2)) 0)).
Proof.
  apply (doNexts_bytes s 0 2).
  - unfold buffer_ok, s, is_u8. repeat constructor; lia.
  - vm_compute. discriminate.
  - vm_compute. lia.
Defined.

Lemma total_nonneg ws :
  Forall (fun w => 1 <= w <= 8) ws -> 0 <= total ws.
Proof.
  induction 1 as [ | w ws Hw _ IH]; cbn [total fold_right].
  - lia.
  - fold (total ws). lia.
Qed.

(** A run of [doNext] calls with widths [ws] (each a [std::uint8_t]) from
    a read cursor within the capacity: every call returns exactly when
    every width is in [1 .. 8] and the widths together fit between the
    cursor and the capacity; the run then leaves the read cursor advanced
    by their sum, and the buffer and the write cursor as they were. *)
Theorem doNexts_complete ws :
  forall t,
  Forall is_u8 ws ->
  8 * Z.of_nat (List.length (data t)) + 8 < 2 ^ SIZE_WIDTH ->
  0 <= read (cursor t) <= 8 * Z.of_nat (List.length (data t)) ->
  (List.length (fst (doNexts ws t)) = List.length ws
   <-> Forall (fun w => 1 <= w <= 8) ws /\
       read (cursor t) + total ws <= 8 * Z.of_nat (List.length (data t)))
  /\ (List.length (fst (doNexts ws t)) = List.length ws ->
      snd (doNexts ws t)
      = mkA (data t)
            (mkCursor (read (cursor t) + total ws) (write (cursor t)))).
Proof.
  induction ws as [ | w ws IH]; intros t Hu Hcap Hpos.
  - cbn [doNexts fst snd List.length total fold_right]. split.
    + split; [intros _; split; [constructor | lia] | reflexivity].
    + intros _. destruct t as [d [r wr]]. cbn [data cursor read write].
      rewrite Z.add_0_r. reflexivity.
  - inversion Hu as [ | w' ws' Hw Hws]; subst w' ws'.
    assert (capacity_ok (data t)) as Hc
      by (unfold capacity_ok, SIZE_WIDTH in *; lia).
    destruct (doNext_cursor_u8 w t Hw Hc (proj1 Hpos)
                ltac:(unfold SIZE_WIDTH in *; lia)) as [Hret Habort].
    cbn zeta in Hret, Habort.
    cbn [doNexts total fold_right]. fold (total ws).
    destruct (Z.le_gt_cases 1 w) as [A1 | A1];
      [destruct (Z.le_gt_cases w 8) as [A2 | A2];
       [destruct (Z.le_gt_cases (read (cursor t) + w)
                    (8 * Z.of_nat (List.length (data t)))) as [A3 | A3] | ]
      | ].
    + destruct (Hret ltac:(lia)) as [str E]. rewrite E.
      cbn [fst snd List.length].
      set (t1 := mkA (data t)
                     (mkCursor (read (cursor t) + w) (write (cursor t)))).
      destruct (IH t1 Hws) as [Hiff Hend];
        [subst t1; cbn [data]; exact Hcap
        | subst t1; cbn [data cursor read]; lia | ].
      subst t1. cbn [data cursor read write] in Hiff, Hend. split.
      * split.
        -- intros Hlen. injection Hlen as Hlen.
           destruct (proj1 Hiff Hlen) as [F L].
           split; [constructor; [lia | exact F] | lia].
        -- intros [F L]. inversion F as [ | w' ws' Fw Fws]; subst w' ws'.
           f_equal. apply (proj2 Hiff). split; [exact Fws | lia].
      * intros Hlen. injection Hlen as Hlen.
        rewrite (Hend Hlen). rewrite Z.add_assoc. reflexivity.
    + rewrite (Habort ltac:(lia)). cbn [fst snd List.length]. split.
      * split; [intros Hlen; discriminate Hlen | ].
        intros [F L]. inversion F as [ | w' ws' Fw Fws]; subst w' ws'.
        pose proof (total_nonneg ws Fws). lia.
      * intros Hlen; discriminate Hlen.
    + rewrite (Habort ltac:(lia)). cbn [fst snd List.length]. split.
      * split; [intros Hlen; discriminate Hlen | ].
        intros [F L]. inversion F as [ | w' ws' Fw Fws]; subst w' ws'. lia.
      * intros Hlen; discriminate Hlen.
    + rewrite (Habort ltac:(lia)). cbn [fst snd List.length]. split.
      * split; [intros Hlen; discriminate Hlen | ].
        intros [F L]. inversion F as [ | w' ws' Fw Fws]; subst w' ws'. lia.
      * intros Hlen; discriminate Hlen.
Qed.

Lemma doNexts_complete_witness :
  List.length (fst (doNexts [1; 4; 7] a)) = List.length [1; 4; 7] /\
  snd (doNexts [1; 4; 7] a) = mkA s (mkCursor 12 0).
Proof.
  assert (Forall is_u8 [1; 4; 7]) as Hu
    by (unfold is_u8; repeat constructor; lia).
  assert (8 * Z.of_nat (List.length (data a)) + 8 < 2 ^ SIZE_WIDTH) as Hc
    by (vm_compute; reflexivity).
  assert (0 <= read (cursor a) <= 8 * Z.of_nat (List.length (data a))) as Hp
    by (vm_compute; split; discriminate).
  destruct (doNexts_complete [1; 4; 7] a Hu Hc Hp) as [Hiff Hend].
  assert (List.length (fst (doNexts [1; 4; 7] a)) = List.length [1; 4; 7])
    as Hlen.
  { apply (proj2 Hiff). split.
    - repeat constructor; lia.
    - vm_compute. discriminate. }
  split; [exact Hlen | exact (Hend Hlen)].
Defined.

(** The strings [main] prints are those of the trace in the source. *)
Example main_strings_trace :
  main_strings
  = ["00000001"; "00001110"; "01010111";
     "00000001"; "01111110"; "00000000"; "00000101"; "00000001";
     "11111101"; "10001010"; "11110111"]%string.
Proof. vm_compute. reflexivity. Qed.
